(** * varbvs: the coordinate-ascent update of the normal model

    A shallow embedding of [varbvs-R/src/varbvsnormupdate_rcpp.cpp]:
    [sigmoidcpp] and [varbvsnormupdate_cpp].  The code is embedded twice.

    Exact arithmetic.  In the first embedding a C++ [double] is a real
    number of [R]: it is the arithmetic the code writes down, without
    rounding.  A real number cannot stand for an infinity or a NaN, so an
    operation that would produce one (a division by zero, the logarithm of
    a non-positive number) ends the modelled run with a [fault] instead of
    inventing a value.  The statements proved on this embedding are about
    the order of the reads and writes, about which call returns, and about
    inequalities and bounds that rounding keeps.

    Binary64.  The second embedding, module [Double], keeps the [double]
    of the source as an IEEE 754 binary64 number.  The runs in which
    rounding, underflow or saturation decide the outcome are computed
    there.

    Vectors.  An Rcpp [NumericVector] is a handle on an R vector; its
    contents are a list.  Element access [v[j]] is not range checked by
    the code, so a read or write outside the vector is a [fault];
    [X.column(j)] is checked and throws. *)

From Stdlib Require Import Reals Lra Lia ZArith List Floats.
From stdpp Require Import base list.

Local Open Scope R_scope.

(** ** Faults and the error monad *)

Inductive fault : Type :=
  | OutOfBounds       (* an index outside the vector or matrix it is used on *)
  | DivisionByZero    (* [a / b] with [b = 0] *)
  | LogOfNonPositive. (* [log(a)] with [a <= 0] *)

Definition M (A : Type) : Type := fault + A.

Definition ret {A : Type} (a : A) : M A := inr a.

Definition raise {A : Type} (f : fault) : M A := inl f.

Definition bind {A B : Type} (m : M A) (k : A -> M B) : M B :=
  match m with
  | inl f => inl f
  | inr a => k a
  end.

Notation "x <- m ;; k" := (bind m (fun x => k))
  (at level 100, m at next level, right associativity).

(** ** Arithmetic of the model *)

(** [a / b] of the source. *)
Definition div (a b : R) : M R :=
  if Req_dec_T b 0 then raise DivisionByZero else ret (a / b).

(** [log(a)] of the source. *)
Definition log (a : R) : M R :=
  if Rlt_dec 0 a then ret (ln a) else raise LogOfNonPositive.

(** [sigmoidcpp], line 11:  [return (1 / (1 + exp(-x)));] *)
Definition sigmoidcpp (x : R) : M R :=
  div 1 (1 + exp (- x)).

(** ** Vectors and the matrix *)

(** [v[j]] read, for the C++ [int] index [j]. *)
Definition get (v : list R) (j : Z) : M R :=
  if (0 <=? j)%Z then
    match v !! Z.to_nat j with
    | Some x => ret x
    | None => raise OutOfBounds
    end
  else raise OutOfBounds.

(** [v[j] = x] write. *)
Definition put (v : list R) (j : Z) (x : R) : M (list R) :=
  if (0 <=? j)%Z then
    if (Z.to_nat j <? length v)%nat then ret (<[Z.to_nat j := x]> v)
    else raise OutOfBounds
  else raise OutOfBounds.

(** A [NumericMatrix]: [nrow] by [ncol], entries stored column after
    column. *)
Record NumericMatrix : Type := {
  nrow : nat;
  ncol : nat;
  elems : list R
}.

(** [X.column(j)]: the [nrow] entries of column [j]; Rcpp refuses a column
    index outside [0, ncol). *)
Definition column (X : NumericMatrix) (j : Z) : M (list R) :=
  if ((0 <=? j) && (j <? Z.of_nat (ncol X)))%Z then
    ret (take (nrow X) (drop (Z.to_nat j * nrow X) (elems X)))
  else raise OutOfBounds.

(** Sum of a vector, [sum(...)]. *)
Definition sum (v : list R) : R := foldr Rplus 0 v.

(** [sum(col * v)]: the product expression has the length of its left
    operand [col] and reads [v] at each of its indices. *)
Definition sum_times (col v : list R) : M R :=
  if (length v <? length col)%nat then raise OutOfBounds
  else ret (sum (zip_with Rmult col v)).

(** [v + c * col]: the sum expression has the length of its left operand
    [v] and reads [col] at each of its indices. *)
Definition plus_scaled (v : list R) (c : R) (col : list R) : M (list R) :=
  if (length col <? length v)%nat then raise OutOfBounds
  else ret (zip_with (fun x y => x + c * y) v col).

(** ** The vectors the pass works on

    [alpha], [mu] and [Xr] of the caller, three distinct R vectors.
    [alpha] and [mu] are received by reference.  [Xr] is received by
    value, which copies the handle and not the R vector: the parameter
    starts as a second handle on the caller's vector ([Shared]).  Assigning
    an expression to a handle stores the elements into the vector it
    designates when the lengths agree, and otherwise makes the handle
    designate a new vector ([Rebound]) that the caller never sees. *)

Record vectors : Type := {
  alpha : list R;
  mu : list R;
  Xr : list R
}.

Inductive handle : Type :=
  | Shared
  | Rebound (v : list R).

Definition deref (h : handle) (st : vectors) : list R :=
  match h with
  | Shared => Xr st
  | Rebound v => v
  end.

(** [Xr = e], line 56. *)
Definition assign (h : handle) (st : vectors) (e : list R) : handle * vectors :=
  if (length (deref h st) =? length e)%nat then
    match h with
    | Shared => (Shared, {| alpha := alpha st; mu := mu st; Xr := e |})
    | Rebound _ => (Rebound e, st)
    end
  else (Rebound e, st).

(** ** The update *)

(** Line 46: [sa * sigma / (sa * d[j] + 1)]. *)
Definition posterior_variance (sa sigma dj : R) : M R :=
  div (sa * sigma) (sa * dj + 1).

(** Line 50, right-hand side:
    [s / sigma * (xy[j] + d[j] * r - sum(X.column(j) * Xr))]. *)
Definition posterior_mean (s sigma xyj dj r dot : R) : M R :=
  q <- div s sigma ;;
  ret (q * (xyj + dj * r - dot)).

(** Line 53, right-hand side:
    [sigmoidcpp(logodds[j] + (log(s / (sa * sigma)) + pow(mu[j], 2) / s) / 2)]. *)
Definition inclusion_probability (logoddsj s sa sigma muj : R) : M R :=
  q <- div s (sa * sigma) ;;
  l <- log q ;;
  w <- div (muj ^ 2) s ;;
  h <- div (l + w) 2 ;;
  sigmoidcpp (logoddsj + h).

Section Pass.

Variable X : NumericMatrix.
Variables sigma sa : R.
Variables logodds xy d : list R.

(** The body of the loop, lines 43 to 56, for the index [j = i[index]]. *)
Definition update (j : Z) (hs : handle * vectors) : M (handle * vectors) :=
  let '(h, st) := hs in
  dj <- get d j ;;
  s <- posterior_variance sa sigma dj ;;
  aj <- get (alpha st) j ;;
  mj <- get (mu st) j ;;
  let r := aj * mj in
  xyj <- get xy j ;;
  col <- column X j ;;
  dot <- sum_times col (deref h st) ;;
  m <- posterior_mean s sigma xyj dj r dot ;;
  mu' <- put (mu st) j m ;;
  lj <- get logodds j ;;
  mj' <- get mu' j ;;
  a <- inclusion_probability lj s sa sigma mj' ;;
  alpha' <- put (alpha st) j a ;;
  let st' := {| alpha := alpha'; mu := mu'; Xr := Xr st |} in
  aj' <- get alpha' j ;;
  mj'' <- get mu' j ;;
  col' <- column X j ;;
  e <- plus_scaled (deref h st') (aj' * mj'' - r) col' ;;
  ret (assign h st' e).

(** The loop of line 40 over the entries of [i]. *)
Fixpoint loop (i : list Z) (hs : handle * vectors) : M (handle * vectors) :=
  match i with
  | [] => ret hs
  | j :: i' => hs' <- update j hs ;; loop i' hs'
  end.

(** [varbvsnormupdate_cpp]: the result is what the caller finds in its
    three vectors when the call returns. *)
Definition varbvsnormupdate_cpp (st : vectors) (i : list Z) : M vectors :=
  hs <- loop i (Shared, st) ;;
  ret (snd hs).

End Pass.

(** ** The mathematics the pass is compared with *)

(** [Rsum n f] is [f 0 + ... + f (n-1)]. *)
Fixpoint Rsum (n : nat) (f : nat -> R) : R :=
  match n with
  | O => 0
  | S k => Rsum k f + f k
  end.

(** The entry of row [i] and column [j] of [X]. *)
Definition entry (X : NumericMatrix) (i j : nat) : R :=
  nth (i + j * nrow X) (elems X) 0.

Definition column_of (X : NumericMatrix) (j : nat) : list R :=
  map (fun i => entry X i j) (seq 0 (nrow X)).

Definition dot (u v : list R) : R :=
  Rsum (length u) (fun i => nth i u 0 * nth i v 0).

(** [alpha ⊙ mu]. *)
Definition hadamard (a m : list R) : list R := zip_with Rmult a m.

(** [X · b]. *)
Definition matvec (X : NumericMatrix) (b : list R) : list R :=
  map (fun i => Rsum (ncol X) (fun j => entry X i j * nth j b 0))
      (seq 0 (nrow X)).

(** [v + c · u]. *)
Definition axpy (v : list R) (c : R) (u : list R) : list R :=
  map (fun i => nth i v 0 + c * nth i u 0) (seq 0 (length v)).

(** The logistic function. *)
Definition sigmoid (x : R) : R := 1 / (1 + exp (- x)).

Section Steps.

Variable X : NumericMatrix.
Variables sigma sa : R.
Variables logodds xy d : list R.

(** Steps 1 to 6 of the specification for the index [j], in its words. *)
Definition s_ (j : nat) : R := sa * sigma / (sa * nth j d 0 + 1).

Definition r_ (st : vectors) (j : nat) : R :=
  nth j (alpha st) 0 * nth j (mu st) 0.

Definition partial_ (st : vectors) (j : nat) : R :=
  nth j xy 0 + nth j d 0 * r_ st j - dot (column_of X j) (Xr st).

Definition mu_new (st : vectors) (j : nat) : R :=
  (s_ j / sigma) * partial_ st j.

Definition alpha_new (st : vectors) (j : nat) : R :=
  sigmoid (nth j logodds 0
           + 0.5 * (ln (s_ j / (sa * sigma)) + (mu_new st j)² / s_ j)).

Definition step (st : vectors) (j : nat) : vectors :=
  {| alpha := <[j := alpha_new st j]> (alpha st);
     mu := <[j := mu_new st j]> (mu st);
     Xr := axpy (Xr st) (alpha_new st j * mu_new st j - r_ st j)
                (column_of X j) |}.

(** The steps for the indices of an order, one after the other. *)
Definition steps (st : vectors) (i : list Z) : vectors :=
  fold_left step (map Z.to_nat i) st.

End Steps.

(** ** Inputs *)

(** The shapes agree: [X] is [nrow X] by [ncol X], the vectors indexed by
    predictor have [ncol X] entries, [Xr] has [nrow X], and the order only
    names predictors. *)
Record shaped (X : NumericMatrix) (logodds xy d : list R) (st : vectors)
    (i : list Z) : Prop := {
  shaped_elems : length (elems X) = (nrow X * ncol X)%nat;
  shaped_logodds : length logodds = ncol X;
  shaped_xy : length xy = ncol X;
  shaped_d : length d = ncol X;
  shaped_alpha : length (alpha st) = ncol X;
  shaped_mu : length (mu st) = ncol X;
  shaped_Xr : length (Xr st) = nrow X;
  shaped_order : Forall (fun j => (0 <= j < Z.of_nat (ncol X))%Z) i
}.

(** The parameters the documentation of the function asks for: positive
    variances, and a [d] without negative entries. *)
Record positive (sigma sa : R) (d : list R) : Prop := {
  positive_sigma : 0 < sigma;
  positive_sa : 0 < sa;
  positive_d : Forall (fun x => 0 <= x) d
}.

(** [Xr] is [X · (alpha ⊙ mu)]. *)
Definition fitted (X : NumericMatrix) (st : vectors) : Prop :=
  Xr st = matvec X (hadamard (alpha st) (mu st)).

(** What the divisions and the logarithm of one update need: this is all
    the code asks of [sigma], [sa] and [d[j]]. *)
Definition regular (sigma sa : R) (d : list R) (j : Z) : Prop :=
  sigma <> 0 /\ sa <> 0 /\ 0 < sa * nth (Z.to_nat j) d 0 + 1.

(** ** Fixed-point lower bounds for the exponential

    Numbers with 18 decimals, as integers to divide by [scale]. *)

Definition scale : Z := 10 ^ 18.

Definition square_down (a : Z) : Z := (a * a / scale)%Z.

Fixpoint squarings (n : nat) (a : Z) : Z :=
  match n with
  | O => a
  | S k => squarings k (square_down a)
  end.

(** [exp y >= (1 + y / 2^n)^(2^n)], computed downwards in fixed point; the
    first term is [first n x]/[scale], below [1 + x / 2^n]. *)
Definition first (num den : Z) (n : nat) : Z :=
  (scale + scale * num / (den * 2 ^ Z.of_nat n))%Z.

Definition exp_below (num den : Z) (n : nat) : Z :=
  squarings n (first num den n).

(** ** The worked scenario: one predictor, one observation *)

Module Scenario.

Definition X : NumericMatrix := {| nrow := 1; ncol := 1; elems := [2] |}.
Definition logodds : list R := [0].
Definition xy : list R := [4].
Definition d : list R := [4].
Definition st0 : vectors := {| alpha := [0]; mu := [0]; Xr := [0] |}.

(** The inclusion probability the pass computes. *)
Definition a1 : R := sigmoid (0.5 * (ln 0.2 + 3.2)).

Definition st1 : vectors :=
  {| alpha := [a1]; mu := [0.8]; Xr := [2 * (a1 * 0.8)] |}.

End Scenario.

(** ** A second input: two observations, two predictors *)

Module Pair.

(** [X] has the columns [(1, 0)] and [(1, 1)]. *)
Definition X : NumericMatrix :=
  {| nrow := 2; ncol := 2; elems := [1; 0; 1; 1] |}.
Definition logodds : list R := [0; 0].
Definition xy : list R := [1; 2].
Definition d : list R := [1; 2].
Definition st0 : vectors :=
  {| alpha := [0; 0]; mu := [0; 0]; Xr := [0; 0] |}.

End Pair.

(** A third input: the columns [(1, 0)] and [(0, 0)] of [X] are orthogonal,
    and the second one is zero. *)

Module Sparse.

Definition X : NumericMatrix :=
  {| nrow := 2; ncol := 2; elems := [1; 0; 0; 0] |}.
Definition logodds : list R := [0; 1].
Definition xy : list R := [3; 0].
Definition d : list R := [1; 0].
Definition st0 : vectors :=
  {| alpha := [0.5; 0.5]; mu := [1; 2]; Xr := [0.5; 0] |}.


End Sparse.

(** A fourth input: vectors whose [Xr] is not [X · (alpha ⊙ mu)], for a
    matrix with the single entry 0. *)

Module Unfitted.

Definition X : NumericMatrix := {| nrow := 1; ncol := 1; elems := [0] |}.
Definition logodds : list R := [0].
Definition xy : list R := [0].
Definition d : list R := [0].
Definition st0 : vectors := {| alpha := [0]; mu := [0]; Xr := [1] |}.

End Unfitted.

(** ** The same code in binary64

    The second embedding keeps the [double] of the source: [float] is
    IEEE 754 binary64 with round to nearest even, as the compiled code
    computes.  Nothing ends a run here but an access out of range: a
    division by zero or a logarithm of a non-positive number yields an
    infinity or a NaN and the run goes on.  The functions [exp], [log] and
    [pow] come from the C library, which is not part of the repository:
    they are a parameter [libm] of the code, and a statement says which of
    their values it relies on. *)

Module Double.

Record libm : Type := {
  exp : float -> float;
  log : float -> float;
  pow : float -> float -> float
}.

(** [sigmoidcpp], line 11:  [return (1 / (1 + exp(-x)));] *)
Definition sigmoidcpp (m : libm) (x : float) : float :=
  (1 / (1 + exp m (- x)))%float.

(** [v[j]] read and [v[j] = x] write, for the C++ [int] index [j]. *)
Definition get (v : list float) (j : Z) : M float :=
  if (0 <=? j)%Z then
    match v !! Z.to_nat j with
    | Some x => ret x
    | None => raise OutOfBounds
    end
  else raise OutOfBounds.

Definition put (v : list float) (j : Z) (x : float) : M (list float) :=
  if (0 <=? j)%Z then
    if (Z.to_nat j <? length v)%nat then ret (<[Z.to_nat j := x]> v)
    else raise OutOfBounds
  else raise OutOfBounds.

Record NumericMatrix : Type := {
  nrow : nat;
  ncol : nat;
  elems : list float
}.

Definition column (X : NumericMatrix) (j : Z) : M (list float) :=
  if ((0 <=? j) && (j <? Z.of_nat (ncol X)))%Z then
    ret (take (nrow X) (drop (Z.to_nat j * nrow X) (elems X)))
  else raise OutOfBounds.

(** [sum(...)]: the entries are added to 0 one after the other, from the
    first. *)
Definition sum (v : list float) : float := fold_left PrimFloat.add v 0%float.

Definition sum_times (col v : list float) : M float :=
  if (length v <? length col)%nat then raise OutOfBounds
  else ret (sum (zip_with PrimFloat.mul col v)).

Definition plus_scaled (v : list float) (c : float) (col : list float)
    : M (list float) :=
  if (length col <? length v)%nat then raise OutOfBounds
  else ret (zip_with (fun x y => x + c * y)%float v col).

Record vectors : Type := {
  alpha : list float;
  mu : list float;
  Xr : list float
}.

Inductive handle : Type :=
  | Shared
  | Rebound (v : list float).

Definition deref (h : handle) (st : vectors) : list float :=
  match h with
  | Shared => Xr st
  | Rebound v => v
  end.

Definition assign (h : handle) (st : vectors) (e : list float)
    : handle * vectors :=
  if (length (deref h st) =? length e)%nat then
    match h with
    | Shared => (Shared, {| alpha := alpha st; mu := mu st; Xr := e |})
    | Rebound _ => (Rebound e, st)
    end
  else (Rebound e, st).

(** Line 46: [sa * sigma / (sa * d[j] + 1)]. *)
Definition posterior_variance (sa sigma dj : float) : float :=
  (sa * sigma / (sa * dj + 1))%float.

(** Line 50, right-hand side. *)
Definition posterior_mean (s sigma xyj dj r dot : float) : float :=
  (s / sigma * (xyj + dj * r - dot))%float.

(** Line 53, right-hand side. *)
Definition inclusion_probability (m : libm) (logoddsj s sa sigma muj : float)
    : float :=
  sigmoidcpp m
    (logoddsj + (log m (s / (sa * sigma)) + pow m muj 2 / s) / 2)%float.

Section Pass.

Variable m : libm.
Variable X : NumericMatrix.
Variables sigma sa : float.
Variables logodds xy d : list float.

(** The body of the loop, lines 43 to 56. *)
Definition update (j : Z) (hs : handle * vectors) : M (handle * vectors) :=
  let '(h, st) := hs in
  dj <- get d j ;;
  let s := posterior_variance sa sigma dj in
  aj <- get (alpha st) j ;;
  mj <- get (mu st) j ;;
  let r := (aj * mj)%float in
  xyj <- get xy j ;;
  col <- column X j ;;
  dot <- sum_times col (deref h st) ;;
  mu' <- put (mu st) j (posterior_mean s sigma xyj dj r dot) ;;
  lj <- get logodds j ;;
  mj' <- get mu' j ;;
  alpha' <- put (alpha st) j (inclusion_probability m lj s sa sigma mj') ;;
  let st' := {| alpha := alpha'; mu := mu'; Xr := Xr st |} in
  aj' <- get alpha' j ;;
  mj'' <- get mu' j ;;
  col' <- column X j ;;
  e <- plus_scaled (deref h st') (aj' * mj'' - r)%float col' ;;
  ret (assign h st' e).

Fixpoint loop (i : list Z) (hs : handle * vectors) : M (handle * vectors) :=
  match i with
  | [] => ret hs
  | j :: i' => hs' <- update j hs ;; loop i' hs'
  end.

Definition varbvsnormupdate_cpp (st : vectors) (i : list Z) : M vectors :=
  hs <- loop i (Shared, st) ;;
  ret (snd hs).

End Pass.

(** A library that returns [e], [l] and [p] everywhere: it only shows that
    the values a statement asks of [exp], [log] and [pow] can be had
    together. *)
Definition libm_const (e l p : float) : libm :=
  {| exp := fun _ => e; log := fun _ => l; pow := fun _ _ => p |}.

(** The inputs of the runs below: one observation, one predictor. *)
Definition matrix (x : float) : NumericMatrix :=
  {| nrow := 1; ncol := 1; elems := [x] |}.

Definition zeros : vectors :=
  {| alpha := [0%float]; mu := [0%float]; Xr := [0%float] |}.

(** [alpha = 1], [mu = 1e17] and the [Xr = 1e17] that goes with them for
    the matrix with the single entry 1. *)
Definition heavy : vectors :=
  {| alpha := [1%float]; mu := [1e17%float]; Xr := [1e17%float] |}.

(** The double nearest to [1e-200]. *)
Definition tiny : float := 0x1.87e92154ef7acp-665%float.

End Double.

(** ** The monad and the partial operations *)

Lemma bind_inr {A B : Type} (m : M A) (k : A -> M B) (b : B) :
  bind m k = inr b -> exists a, m = inr a /\ k a = inr b.
Proof.
  destruct m as [f | a]; simpl; intros H.
  - discriminate H.
  - exists a. split; [reflexivity | exact H].
Qed.

Lemma bind_not_fault {A B : Type} (m : M A) (k : A -> M B) (f : fault) :
  m <> inl f -> (forall a, m = inr a -> k a <> inl f) -> bind m k <> inl f.
Proof.
  destruct m as [g | a]; simpl; intros Hm Hk.
  - intros E. apply Hm. injection E as ->. reflexivity.
  - apply Hk. reflexivity.
Qed.

Lemma div_nonzero (a b : R) : b <> 0 -> div a b = inr (a / b).
Proof.
  intros Hb. unfold div. destruct (Req_dec_T b 0) as [E | _].
  - contradiction.
  - reflexivity.
Qed.

Lemma log_positive (a : R) : 0 < a -> log a = inr (ln a).
Proof.
  intros Ha. unfold log. destruct (Rlt_dec 0 a) as [_ | N].
  - reflexivity.
  - contradiction.
Qed.

Lemma sigmoidcpp_sigmoid (x : R) : sigmoidcpp x = inr (sigmoid x).
Proof.
  unfold sigmoidcpp, sigmoid. apply div_nonzero.
  pose proof (exp_pos (- x)). lra.
Qed.

Lemma get_in_range (v : list R) (j : Z) :
  (0 <= j)%Z -> (Z.to_nat j < length v)%nat ->
  get v j = inr (nth (Z.to_nat j) v 0).
Proof.
  intros H0 Hlt. unfold get.
  rewrite (proj2 (Z.leb_le 0 j) H0).
  rewrite nth_lookup.
  destruct (lookup_lt_is_Some_2 v (Z.to_nat j) Hlt) as [x Hx].
  rewrite Hx. reflexivity.
Qed.

Lemma put_in_range (v : list R) (j : Z) (x : R) :
  (0 <= j)%Z -> (Z.to_nat j < length v)%nat ->
  put v j x = inr (<[Z.to_nat j := x]> v).
Proof.
  intros H0 Hlt. unfold put.
  rewrite (proj2 (Z.leb_le 0 j) H0).
  rewrite (proj2 (Nat.ltb_lt _ _) Hlt). reflexivity.
Qed.

Lemma nth_insert_eq (v : list R) (k : nat) (x : R) :
  (k < length v)%nat -> nth k (<[k := x]> v) 0 = x.
Proof.
  intros Hk. rewrite nth_lookup, list_lookup_insert_eq by exact Hk.
  reflexivity.
Qed.

(** ** Sums, columns and the vector operations *)

Lemma Rsum_ext (n : nat) (f g : nat -> R) :
  (forall i, (i < n)%nat -> f i = g i) -> Rsum n f = Rsum n g.
Proof.
  induction n as [| n IH]; intros E; simpl.
  - reflexivity.
  - rewrite IH by (intros i Hi; apply E; lia).
    rewrite E by lia. reflexivity.
Qed.

Lemma Rsum_shift (n : nat) (f : nat -> R) :
  Rsum (S n) f = f O + Rsum n (fun i => f (S i)).
Proof.
  induction n as [| n IH].
  - simpl. lra.
  - change (Rsum (S (S n)) f) with (Rsum (S n) f + f (S n)).
    rewrite IH. simpl. lra.
Qed.

Lemma sum_Rsum (l : list R) : sum l = Rsum (length l) (fun i => nth i l 0).
Proof.
  induction l as [| x l IH].
  - reflexivity.
  - change (length (x :: l)) with (S (length l)).
    rewrite Rsum_shift. simpl. rewrite <- IH. reflexivity.
Qed.

Lemma nth_zip_with (f : R -> R -> R) (u v : list R) (i : nat) :
  (i < length u)%nat -> (i < length v)%nat ->
  nth i (zip_with f u v) 0 = f (nth i u 0) (nth i v 0).
Proof.
  intros Hu Hv. rewrite !nth_lookup, lookup_zip_with.
  destruct (lookup_lt_is_Some_2 u i Hu) as [a Ha].
  destruct (lookup_lt_is_Some_2 v i Hv) as [b Hb].
  rewrite Ha, Hb. reflexivity.
Qed.

Lemma sum_times_dot (col v : list R) :
  (length col <= length v)%nat -> sum_times col v = inr (dot col v).
Proof.
  intros Hle. unfold sum_times.
  rewrite (proj2 (Nat.ltb_ge _ _) Hle).
  unfold ret, dot. f_equal.
  rewrite sum_Rsum, length_zip_with, Nat.min_l by exact Hle.
  apply Rsum_ext. intros i Hi. apply nth_zip_with; lia.
Qed.

Lemma plus_scaled_axpy (v : list R) (c : R) (col : list R) :
  (length v <= length col)%nat -> plus_scaled v c col = inr (axpy v c col).
Proof.
  intros Hle. unfold plus_scaled.
  rewrite (proj2 (Nat.ltb_ge _ _) Hle).
  unfold ret, axpy. f_equal.
  apply list_eq. intros i.
  rewrite lookup_zip_with, list_lookup_fmap.
  destruct (decide (i < length v)%nat) as [Hi | Hi].
  - rewrite lookup_seq_lt by exact Hi. simpl.
    destruct (lookup_lt_is_Some_2 v i Hi) as [a Ha].
    destruct (lookup_lt_is_Some_2 col i ltac:(lia)) as [b Hb].
    rewrite !nth_lookup, Ha, Hb. reflexivity.
  - rewrite lookup_seq_ge by lia.
    rewrite (lookup_ge_None_2 v i) by lia. reflexivity.
Qed.

Lemma length_axpy (v : list R) (c : R) (u : list R) :
  length (axpy v c u) = length v.
Proof. unfold axpy. rewrite length_map, length_seq. reflexivity. Qed.

Lemma length_column_of (X : NumericMatrix) (j : nat) :
  length (column_of X j) = nrow X.
Proof. unfold column_of. rewrite length_map, length_seq. reflexivity. Qed.

Lemma nth_column_of (X : NumericMatrix) (j i : nat) :
  (i < nrow X)%nat -> nth i (column_of X j) 0 = entry X i j.
Proof.
  intros Hi. unfold column_of.
  rewrite nth_lookup, list_lookup_fmap, lookup_seq_lt by exact Hi.
  reflexivity.
Qed.

Lemma column_column_of (X : NumericMatrix) (j : Z) :
  length (elems X) = (nrow X * ncol X)%nat ->
  (0 <= j < Z.of_nat (ncol X))%Z ->
  column X j = inr (column_of X (Z.to_nat j)).
Proof.
  intros Hlen [H0 Hp]. unfold column.
  rewrite (proj2 (Z.leb_le 0 j) H0), (proj2 (Z.ltb_lt _ _) Hp). simpl.
  unfold ret, column_of. f_equal.
  apply list_eq. intros i.
  rewrite list_lookup_fmap.
  destruct (decide (i < nrow X)%nat) as [Hi | Hi].
  - rewrite lookup_take_lt by exact Hi.
    rewrite lookup_drop, lookup_seq_lt by exact Hi. simpl.
    unfold entry. rewrite nth_lookup.
    assert (Hin : (Z.to_nat j * nrow X + i < length (elems X))%nat) by nia.
    destruct (lookup_lt_is_Some_2 _ _ Hin) as [x Hx].
    rewrite Hx. replace (i + Z.to_nat j * nrow X)%nat
      with (Z.to_nat j * nrow X + i)%nat by lia.
    rewrite Hx. reflexivity.
  - rewrite lookup_take_ge by lia.
    rewrite lookup_seq_ge by lia. reflexivity.
Qed.

(** ** The loop body against the steps of the specification *)

Lemma positive_regular (sigma sa : R) (d : list R) (j : Z) :
  positive sigma sa d -> regular sigma sa d j.
Proof.
  intros [Hsigma Hsa Hd]. unfold regular.
  assert (Hj : 0 <= nth (Z.to_nat j) d 0).
  { destruct (nth_in_or_default (Z.to_nat j) d 0) as [Hin | ->].
    - exact (proj1 (List.Forall_forall _ d) Hd _ Hin).
    - lra. }
  repeat split; try lra. nra.
Qed.

Section Refinement.

Variable X : NumericMatrix.
Variables sigma sa : R.
Variables logodds xy d : list R.

Lemma posterior_variance_s (j : nat) :
  sa * nth j d 0 + 1 <> 0 ->
  posterior_variance sa sigma (nth j d 0) = inr (s_ sigma sa d j).
Proof. intros H. unfold posterior_variance, s_. apply div_nonzero, H. Qed.

Lemma posterior_mean_value (s xyj dj r dt : R) :
  sigma <> 0 ->
  posterior_mean s sigma xyj dj r dt = inr (s / sigma * (xyj + dj * r - dt)).
Proof.
  intros H. unfold posterior_mean. rewrite div_nonzero by exact H.
  reflexivity.
Qed.

Lemma inclusion_probability_value (lj s m : R) :
  sa * sigma <> 0 -> 0 < s / (sa * sigma) -> s <> 0 ->
  inclusion_probability lj s sa sigma m
  = inr (sigmoid (lj + 0.5 * (ln (s / (sa * sigma)) + m² / s))).
Proof.
  intros H1 H2 H3. unfold inclusion_probability.
  rewrite (div_nonzero s) by exact H1. simpl.
  rewrite log_positive by exact H2. simpl.
  rewrite (div_nonzero (m ^ 2)) by exact H3. simpl.
  rewrite div_nonzero by lra. simpl.
  rewrite sigmoidcpp_sigmoid. do 2 f_equal.
  rewrite Rsqr_pow2. lra.
Qed.

Lemma s_nonzero (j : Z) :
  regular sigma sa d j -> s_ sigma sa d (Z.to_nat j) <> 0.
Proof.
  intros (Hsigma & Hsa & Hd). unfold s_.
  apply Rmult_integral_contrapositive_currified.
  - apply Rmult_integral_contrapositive_currified; assumption.
  - apply Rinv_neq_0_compat. lra.
Qed.

Lemma s_ratio (j : Z) :
  regular sigma sa d j ->
  s_ sigma sa d (Z.to_nat j) / (sa * sigma)
  = / (sa * nth (Z.to_nat j) d 0 + 1).
Proof.
  intros (Hsigma & Hsa & Hd). unfold s_. field. repeat split; lra.
Qed.

(** One run of the loop body on the caller's vectors is the step of the
    specification, and the handle [Xr] still designates the caller's
    vector afterwards. *)
Lemma update_step (st : vectors) (j : Z) (i : list Z) :
  shaped X logodds xy d st (j :: i) ->
  regular sigma sa d j ->
  update X sigma sa logodds xy d j (Shared, st)
  = inr (Shared, step X sigma sa logodds xy d st (Z.to_nat j)).
Proof.
  intros [He Hl Hxy Hd Ha Hm Hx Ho] Hreg.
  pose proof (Forall_inv Ho) as [Hj0 Hjp]. simpl in Hj0, Hjp.
  assert (Hk : (Z.to_nat j < ncol X)%nat) by lia.
  pose proof Hreg as (Hsigma & Hsa & Hpos).
  unfold update.
  rewrite (get_in_range d) by (try rewrite Hd; assumption). simpl.
  rewrite posterior_variance_s by lra. simpl.
  rewrite (get_in_range (alpha st)) by (try rewrite Ha; assumption). simpl.
  rewrite (get_in_range (mu st)) by (try rewrite Hm; assumption). simpl.
  rewrite (get_in_range xy) by (try rewrite Hxy; assumption). simpl.
  rewrite column_column_of by (try split; assumption). simpl.
  rewrite sum_times_dot by (rewrite length_column_of, Hx; lia). simpl.
  rewrite posterior_mean_value by exact Hsigma. simpl.
  rewrite put_in_range by (try rewrite Hm; assumption). simpl.
  rewrite (get_in_range logodds) by (try rewrite Hl; assumption). simpl.
  rewrite get_in_range by (try rewrite length_insert, Hm; assumption). simpl.
  rewrite nth_insert_eq by (rewrite Hm; exact Hk).
  rewrite inclusion_probability_value.
  2: { apply Rmult_integral_contrapositive_currified; assumption. }
  2: { rewrite s_ratio by exact Hreg. apply Rinv_0_lt_compat, Hpos. }
  2: { apply s_nonzero, Hreg. }
  simpl.
  rewrite put_in_range by (try rewrite Ha; assumption). simpl.
  rewrite get_in_range by (try rewrite length_insert, Ha; assumption). simpl.
  rewrite nth_insert_eq by (rewrite Ha; exact Hk).
  rewrite plus_scaled_axpy by (rewrite length_column_of, Hx; lia). simpl.
  unfold ret, assign. simpl.
  rewrite length_axpy, Nat.eqb_refl. reflexivity.
Qed.

Lemma step_shaped (st : vectors) (j : Z) (i : list Z) :
  shaped X logodds xy d st (j :: i) ->
  shaped X logodds xy d (step X sigma sa logodds xy d st (Z.to_nat j)) i.
Proof.
  intros [He Hl Hxy Hd Ha Hm Hx Ho].
  constructor; simpl; try assumption.
  - rewrite length_insert. exact Ha.
  - rewrite length_insert. exact Hm.
  - rewrite length_axpy. exact Hx.
  - exact (Forall_inv_tail Ho).
Qed.

(** The loop on the caller's vectors is the sequence of steps. *)
Lemma loop_steps (i : list Z) (st : vectors) :
  shaped X logodds xy d st i ->
  Forall (regular sigma sa d) i ->
  loop X sigma sa logodds xy d i (Shared, st)
  = inr (Shared, steps X sigma sa logodds xy d st i).
Proof.
  revert st. induction i as [| j i IH]; intros st Hs Hr.
  - reflexivity.
  - cbn [loop]. rewrite (update_step st j i Hs (Forall_inv Hr)).
    cbn [bind]. rewrite IH.
    + reflexivity.
    + apply step_shaped, Hs.
    + exact (Forall_inv_tail Hr).
Qed.

Lemma pass_steps (i : list Z) (st : vectors) :
  shaped X logodds xy d st i ->
  Forall (regular sigma sa d) i ->
  varbvsnormupdate_cpp X sigma sa logodds xy d st i
  = inr (steps X sigma sa logodds xy d st i).
Proof.
  intros Hs Hr. unfold varbvsnormupdate_cpp.
  rewrite loop_steps by assumption. reflexivity.
Qed.

End Refinement.

(** ** The fitted values *)

Section Fitted.

Variable X : NumericMatrix.
Variables sigma sa : R.
Variables logodds xy d : list R.

(** A step only writes the entry [j] of [alpha] and of [mu]. *)
Lemma steps_frame (i : list Z) (st : vectors) (k : nat) :
  k ∉ map Z.to_nat i ->
  alpha (steps X sigma sa logodds xy d st i) !! k = alpha st !! k
  /\ mu (steps X sigma sa logodds xy d st i) !! k = mu st !! k.
Proof.
  revert st. induction i as [| j i IH]; intros st Hk.
  - split; reflexivity.
  - unfold steps. cbn [map fold_left].
    cbn [map] in Hk. apply not_elem_of_cons in Hk. destruct Hk as [Hne Hk].
    destruct (IH (step X sigma sa logodds xy d st (Z.to_nat j)) Hk)
      as [Ea Em].
    unfold steps in Ea, Em. rewrite Ea, Em. cbn [step alpha mu].
    rewrite !list_lookup_insert_ne by congruence.
    split; reflexivity.
Qed.

End Fitted.

(** ** Divisions *)

Lemma log_no_div (a : R) : log a <> inl DivisionByZero.
Proof. unfold log. destruct (Rlt_dec 0 a); discriminate. Qed.

Lemma sigmoidcpp_no_div (x : R) : sigmoidcpp x <> inl DivisionByZero.
Proof. rewrite sigmoidcpp_sigmoid. discriminate. Qed.

Lemma div_no_div (a b : R) : b <> 0 -> div a b <> inl DivisionByZero.
Proof. intros Hb. rewrite div_nonzero by exact Hb. discriminate. Qed.

Lemma posterior_mean_no_div (s sigma xyj dj r dt : R) :
  sigma <> 0 -> posterior_mean s sigma xyj dj r dt <> inl DivisionByZero.
Proof.
  intros H. rewrite posterior_mean_value by exact H. discriminate.
Qed.

Lemma inclusion_probability_no_div (lj s sa sigma m : R) :
  sa * sigma <> 0 -> s <> 0 ->
  inclusion_probability lj s sa sigma m <> inl DivisionByZero.
Proof.
  intros H1 H2. unfold inclusion_probability.
  apply bind_not_fault; [apply div_no_div, H1 | intros q _].
  apply bind_not_fault; [apply log_no_div | intros l _].
  apply bind_not_fault; [apply div_no_div, H2 | intros w _].
  apply bind_not_fault; [apply div_no_div; lra | intros h _].
  apply sigmoidcpp_no_div.
Qed.

(** ** The logistic function *)





(** ** Adding nothing to a vector *)


(** ** Bounds on the exponential *)

Lemma scale_positive : 0 < IZR scale.
Proof. apply IZR_lt. reflexivity. Qed.

Lemma square_down_nonneg (a : Z) : (0 <= a)%Z -> (0 <= square_down a)%Z.
Proof.
  intros Ha. unfold square_down. apply Z.div_pos; [nia | reflexivity].
Qed.

Lemma square_down_sound (a : Z) (y : R) :
  (0 <= a)%Z -> IZR a / IZR scale <= exp y ->
  IZR (square_down a) / IZR scale <= exp (2 * y).
Proof.
  intros Ha Hy. pose proof scale_positive as HS.
  replace (2 * y) with (y + y) by lra. rewrite exp_plus.
  assert (H0 : 0 <= IZR a / IZR scale).
  { apply Rmult_le_pos; [apply IZR_le, Ha | apply Rlt_le, Rinv_0_lt_compat, HS]. }
  assert (Hd : IZR (square_down a) <= IZR a * IZR a / IZR scale).
  { apply (Rmult_le_reg_r (IZR scale)); [exact HS |].
    unfold Rdiv at 1. rewrite Rmult_assoc, Rinv_l, Rmult_1_r by lra.
    rewrite <- !mult_IZR. apply IZR_le. unfold square_down.
    rewrite Z.mul_comm. apply Z.mul_div_le. reflexivity. }
  apply Rle_trans with (IZR a / IZR scale * (IZR a / IZR scale)).
  - apply (Rmult_le_reg_r (IZR scale)); [exact HS |].
    unfold Rdiv at 1. rewrite Rmult_assoc, Rinv_l, Rmult_1_r by lra.
    eapply Rle_trans; [exact Hd |]. apply Req_le. field. lra.
  - apply Rmult_le_compat; assumption.
Qed.

Lemma squarings_sound (n : nat) (a : Z) (y : R) :
  (0 <= a)%Z -> IZR a / IZR scale <= exp y ->
  IZR (squarings n a) / IZR scale <= exp (2 ^ n * y).
Proof.
  revert a y. induction n as [| n IH]; intros a y Ha Hy.
  - simpl. rewrite Rmult_1_l. exact Hy.
  - cbn [squarings]. replace (2 ^ S n * y) with (2 ^ n * (2 * y)) by (simpl; lra).
    apply IH.
    + apply square_down_nonneg, Ha.
    + apply square_down_sound; assumption.
Qed.

Lemma first_sound (num den : Z) (n : nat) :
  (0 < den)%Z ->
  IZR (first num den n) / IZR scale <= exp (IZR num / IZR den / 2 ^ n).
Proof.
  intros Hden. pose proof scale_positive as HS.
  eapply Rle_trans; [| apply exp_ineq1_le].
  assert (Hp : 0 < 2 ^ n) by (apply pow_lt; lra).
  assert (HD : 0 < IZR den) by (apply IZR_lt, Hden).
  assert (Hq : (0 < den * 2 ^ Z.of_nat n)%Z).
  { apply Z.mul_pos_pos; [exact Hden | apply Z.pow_pos_nonneg; lia]. }
  assert (E : IZR (den * 2 ^ Z.of_nat n) = IZR den * 2 ^ n).
  { rewrite mult_IZR. f_equal. rewrite <- pow_IZR. reflexivity. }
  apply (Rmult_le_reg_r (IZR scale)); [exact HS |].
  unfold Rdiv at 1. rewrite Rmult_assoc, Rinv_l, Rmult_1_r by lra.
  unfold first. rewrite plus_IZR.
  assert (Hfl : IZR (scale * num / (den * 2 ^ Z.of_nat n))
                <= IZR scale * IZR num / (IZR den * 2 ^ n)).
  { apply (Rmult_le_reg_r (IZR den * 2 ^ n)); [nra |].
    unfold Rdiv at 1. rewrite Rmult_assoc, Rinv_l, Rmult_1_r by nra.
    rewrite <- E, <- !mult_IZR. apply IZR_le.
    rewrite Z.mul_comm. apply Z.mul_div_le. exact Hq. }
  eapply Rle_trans; [apply Rplus_le_compat_l, Hfl |].
  apply Req_le. field. split; lra.
Qed.

Lemma exp_below_sound (num den : Z) (n : nat) :
  (0 < den)%Z -> (0 <= first num den n)%Z ->
  IZR (exp_below num den n) / IZR scale <= exp (IZR num / IZR den).
Proof.
  intros Hden H0.
  replace (IZR num / IZR den) with (2 ^ n * (IZR num / IZR den / 2 ^ n)).
  - apply squarings_sound; [exact H0 | apply first_sound, Hden].
  - field. split; [apply not_0_IZR; lia | apply pow_nonzero; lra].
Qed.

Lemma scaled_above (k v : Z) (c : R) :
  (k <= v)%Z -> c * IZR scale <= IZR k -> c <= IZR v / IZR scale.
Proof.
  intros Hkv Hc. pose proof scale_positive as HS.
  apply (Rmult_le_reg_r (IZR scale)); [exact HS |].
  unfold Rdiv. rewrite Rmult_assoc, Rinv_l, Rmult_1_r by lra.
  apply IZR_le in Hkv. lra.
Qed.

Lemma scale_value : IZR scale = 1000000000000000000.
Proof. reflexivity. Qed.

Lemma exp_minus_85_above : 0.2018964 <= exp (- (8 / 5)).
Proof.
  replace (- (8 / 5)) with (IZR (-8) / IZR 5) by lra.
  eapply Rle_trans;
    [| apply (exp_below_sound (-8) 5 24); [reflexivity | vm_compute; discriminate]].
  apply (scaled_above 201896400000000000).
  - vm_compute. discriminate.
  - rewrite scale_value. lra.
Qed.

Lemma exp_85_above : 4.953031 <= exp (8 / 5).
Proof.
  replace (8 / 5) with (IZR 8 / IZR 5) by lra.
  eapply Rle_trans;
    [| apply (exp_below_sound 8 5 24); [reflexivity | vm_compute; discriminate]].
  apply (scaled_above 4953031000000000000).
  - vm_compute. discriminate.
  - rewrite scale_value. lra.
Qed.

Lemma exp_minus_85_below : exp (- (8 / 5)) <= 0.2018966.
Proof.
  rewrite exp_Ropp. pose proof exp_85_above as H.
  apply (Rmult_le_reg_r (exp (8 / 5))); [lra |].
  rewrite Rinv_l by lra. nra.
Qed.

(** ** The inputs of the examples *)

Lemma scenario_shaped (i : list Z) :
  Forall (fun j => j = 0%Z) i ->
  shaped Scenario.X Scenario.logodds Scenario.xy Scenario.d Scenario.st0 i.
Proof.
  intros Hi. constructor; try reflexivity.
  eapply Forall_impl; [exact Hi |]. intros j ->. simpl. lia.
Qed.

Lemma scenario_positive : positive 1 1 Scenario.d.
Proof.
  constructor; try lra.
  unfold Scenario.d. repeat constructor. lra.
Qed.

Lemma scenario_step :
  step Scenario.X 1 1 Scenario.logodds Scenario.xy Scenario.d Scenario.st0 0
  = Scenario.st1.
Proof.
  assert (Es : s_ 1 1 Scenario.d 0 = 0.2).
  { unfold s_. simpl. lra. }
  assert (Ep : partial_ Scenario.X Scenario.xy Scenario.d Scenario.st0 0 = 4).
  { unfold partial_, r_, dot, column_of, entry. simpl. lra. }
  assert (Em : mu_new Scenario.X 1 1 Scenario.xy Scenario.d Scenario.st0 0
               = 0.8).
  { unfold mu_new. rewrite Es, Ep. lra. }
  assert (Ea : alpha_new Scenario.X 1 1 Scenario.logodds Scenario.xy
                 Scenario.d Scenario.st0 0 = Scenario.a1).
  { unfold alpha_new, Scenario.a1. rewrite Em, Es. simpl nth.
    f_equal. replace (0.2 / (1 * 1)) with 0.2 by lra.
    unfold Rsqr. lra. }
  unfold step, Scenario.st1. rewrite Ea, Em.
  unfold r_, axpy, column_of, entry. simpl. repeat f_equal. lra.
Qed.

Lemma scenario_pass :
  varbvsnormupdate_cpp Scenario.X 1 1 Scenario.logodds Scenario.xy Scenario.d
    Scenario.st0 [0%Z]
  = inr Scenario.st1.
Proof.
  rewrite pass_steps.
  - unfold steps. cbn [map fold_left]. change (Z.to_nat 0) with O.
    rewrite scenario_step. reflexivity.
  - apply scenario_shaped. repeat constructor.
  - constructor; [apply positive_regular, scenario_positive | constructor].
Qed.

Lemma a1_bounds : 0.688963 < Scenario.a1 < 0.688965.
Proof.
  unfold Scenario.a1, sigmoid.
  set (z := 0.5 * (ln 0.2 + 3.2)).
  set (w := exp (- (0.5 * ln 0.2))).
  assert (Hw : 0 < w) by apply exp_pos.
  assert (Hww : w * w = 5).
  { unfold w. rewrite <- exp_plus.
    replace (- (0.5 * ln 0.2) + - (0.5 * ln 0.2)) with (- ln 0.2) by lra.
    rewrite exp_Ropp, exp_ln by lra. lra. }
  assert (Hw1 : 2.2360679 < w) by nra.
  assert (Hw2 : w < 2.2360680) by nra.
  assert (Ez : exp (- z) = exp (- (8 / 5)) * w).
  { unfold w, z. rewrite <- exp_plus. f_equal. lra. }
  pose proof exp_minus_85_above as He1.
  pose proof exp_minus_85_below as He2.
  rewrite Ez. set (e := exp (- (8 / 5))) in *.
  assert (HE1 : 0.4514540 < e * w) by nra.
  assert (HE2 : e * w < 0.4514548) by nra.
  split.
  - apply (Rmult_lt_reg_r (1 + e * w)); [lra |].
    unfold Rdiv. rewrite Rmult_assoc, Rinv_l by lra. lra.
  - apply (Rmult_lt_reg_r (1 + e * w)); [lra |].
    unfold Rdiv. rewrite Rmult_assoc, Rinv_l by lra. lra.
Qed.

Lemma pair_shaped (l : list R) (i : list Z) :
  length l = 2%nat ->
  Forall (fun j => (0 <= j < 2)%Z) i ->
  shaped Pair.X l Pair.xy Pair.d Pair.st0 i.
Proof.
  intros Hl Hi. constructor; try reflexivity; assumption.
Qed.

Lemma pair_positive : positive 1 1 Pair.d.
Proof.
  constructor; try lra.
  unfold Pair.d. repeat constructor; lra.
Qed.

Lemma positive_all_regular (sigma sa : R) (d : list R) (i : list Z) :
  positive sigma sa d -> Forall (regular sigma sa d) i.
Proof.
  intros Hp. apply List.Forall_forall. intros j _.
  apply positive_regular, Hp.
Qed.

(** ** The handle on [Xr] *)

Lemma plus_scaled_length (v : list R) (c : R) (col e : list R) :
  plus_scaled v c col = inr e -> length e = length v.
Proof.
  unfold plus_scaled.
  destruct (length col <? length v)%nat eqn:E; [discriminate |].
  intros [= <-]. apply Nat.ltb_ge in E.
  rewrite length_zip_with. lia.
Qed.

Lemma put_length (v : list R) (j : Z) (x : R) (v' : list R) :
  put v j x = inr v' -> length v' = length v.
Proof.
  unfold put. destruct (0 <=? j)%Z; [| discriminate].
  destruct (Z.to_nat j <? length v)%nat; [| discriminate].
  intros [= <-]. apply length_insert.
Qed.

(** Whatever the arguments, a loop body that returns has written [Xr]
    into the caller's vector. *)
Lemma update_keeps_shared (X : NumericMatrix) (sigma sa : R)
    (logodds xy d : list R) (j : Z) (st : vectors) (h : handle)
    (st' : vectors) :
  update X sigma sa logodds xy d j (Shared, st) = inr (h, st') ->
  h = Shared.
Proof.
  unfold update. intros H.
  do 17 (apply bind_inr in H; destruct H as (? & ? & H)).
  match goal with
  | He : plus_scaled _ _ _ = inr _ |- _ => apply plus_scaled_length in He
  end.
  unfold ret, assign in H. cbn [deref Xr] in *.
  match goal with
  | He : length ?e = length _ |- _ => rewrite He, Nat.eqb_refl in H
  end.
  injection H as <- _. reflexivity.
Qed.

Lemma loop_keeps_shared (X : NumericMatrix) (sigma sa : R)
    (logodds xy d : list R) (i : list Z) (st : vectors) (h : handle)
    (st' : vectors) :
  loop X sigma sa logodds xy d i (Shared, st) = inr (h, st') ->
  h = Shared.
Proof.
  revert st. induction i as [| j i IH]; intros st H.
  - injection H as <- _. reflexivity.
  - cbn [loop] in H. apply bind_inr in H.
    destruct H as ([h1 st1] & H1 & H).
    apply update_keeps_shared in H1 as ->.
    exact (IH st1 H).
Qed.

Lemma loop_app (X : NumericMatrix) (sigma sa : R) (logodds xy d : list R)
    (i1 i2 : list Z) (hs : handle * vectors) :
  loop X sigma sa logodds xy d (i1 ++ i2) hs
  = (hs' <- loop X sigma sa logodds xy d i1 hs ;;
     loop X sigma sa logodds xy d i2 hs').
Proof.
  revert hs. induction i1 as [| j i1 IH]; intros hs.
  - reflexivity.
  - cbn [app loop].
    destruct (update X sigma sa logodds xy d j hs) as [f | hs1].
    + reflexivity.
    + cbn [bind]. apply IH.
Qed.

(** ** A column of zeros *)

Lemma Rsum_zero (n : nat) (f : nat -> R) :
  (forall i, (i < n)%nat -> f i = 0) -> Rsum n f = 0.
Proof.
  induction n as [| n IH]; intros E; simpl.
  - reflexivity.
  - rewrite IH by (intros i Hi; apply E; lia). rewrite E by lia. lra.
Qed.

Lemma axpy_zero_vector (v u : list R) (c : R) :
  (forall i, nth i u 0 = 0) -> axpy v c u = v.
Proof.
  intros Hu. unfold axpy. apply list_eq. intros i.
  rewrite list_lookup_fmap.
  destruct (decide (i < length v)%nat) as [Hi | Hi].
  - rewrite lookup_seq_lt by exact Hi. simpl.
    destruct (lookup_lt_is_Some_2 v i Hi) as [a Ha].
    rewrite Hu, nth_lookup, Ha. simpl. f_equal. lra.
  - rewrite lookup_seq_ge by lia.
    rewrite (lookup_ge_None_2 v i) by lia. reflexivity.
Qed.

Lemma zero_column_nth (X : NumericMatrix) (j : nat) :
  (forall l, (l < nrow X)%nat -> entry X l j = 0) ->
  forall i, nth i (column_of X j) 0 = 0.
Proof.
  intros Hz i. destruct (decide (i < nrow X)%nat) as [Hi | Hi].
  - rewrite nth_column_of by exact Hi. apply Hz, Hi.
  - apply nth_overflow. rewrite length_column_of. lia.
Qed.

Lemma step_zero_column (X : NumericMatrix) (sigma sa : R)
    (logodds xy d : list R) (st : vectors) (j : nat) :
  sigma <> 0 -> sa <> 0 ->
  (forall l, (l < nrow X)%nat -> entry X l j = 0) ->
  nth j d 0 = 0 -> nth j xy 0 = 0 ->
  step X sigma sa logodds xy d st j
  = {| alpha := <[j := sigmoid (nth j logodds 0)]> (alpha st);
       mu := <[j := 0]> (mu st);
       Xr := Xr st |}.
Proof.
  intros Hsigma Hsa Hz Hd Hxy.
  pose proof (zero_column_nth X j Hz) as Hcol.
  assert (Es : s_ sigma sa d j = sa * sigma).
  { unfold s_. rewrite Hd. field. }
  assert (Em : mu_new X sigma sa xy d st j = 0).
  { unfold mu_new, partial_. rewrite Hd, Hxy.
    unfold dot. rewrite Rsum_zero.
    - lra.
    - intros i _. rewrite Hcol. lra. }
  assert (Ea : alpha_new X sigma sa logodds xy d st j
               = sigmoid (nth j logodds 0)).
  { unfold alpha_new. rewrite Em, Es. f_equal.
    replace (sa * sigma / (sa * sigma)) with 1 by (field; split; assumption).
    rewrite ln_1. unfold Rsqr, Rdiv. lra. }
  unfold step. rewrite Ea, Em.
  rewrite axpy_zero_vector by exact Hcol. reflexivity.
Qed.




(** ** A sweep that changes nothing *)





(** ** Accesses out of range and entries that are never read *)






Lemma update_in_range (X : NumericMatrix) (sigma sa : R)
    (logodds xy d : list R) (j : Z) (hs hs' : handle * vectors) :
  update X sigma sa logodds xy d j hs = inr hs' ->
  (0 <= j < Z.of_nat (ncol X))%Z.
Proof.
  destruct hs as [h st]. unfold update. intros H.
  do 6 (apply bind_inr in H; destruct H as (? & ? & H)).
  match goal with
  | Hc : column X j = inr _ |- _ => unfold column in Hc;
      destruct ((0 <=? j) && (j <? Z.of_nat (ncol X)))%Z eqn:E;
      [| discriminate Hc]
  end.
  apply andb_true_iff in E. destruct E as [E1 E2].
  apply Z.leb_le in E1. apply Z.ltb_lt in E2. split; assumption.
Qed.

Lemma update_lengths (X : NumericMatrix) (sigma sa : R)
    (logodds xy d : list R) (j : Z) (st st' : vectors) (h : handle) :
  update X sigma sa logodds xy d j (Shared, st) = inr (h, st') ->
  length (alpha st') = length (alpha st)
  /\ length (mu st') = length (mu st)
  /\ length (Xr st') = length (Xr st).
Proof.
  unfold update. intros H.
  do 17 (apply bind_inr in H; destruct H as (? & ? & H)).
  repeat match goal with
         | Hp : put _ _ _ = inr _ |- _ => apply put_length in Hp
         | He : plus_scaled _ _ _ = inr _ |- _ => apply plus_scaled_length in He
         end.
  unfold ret, assign in H. cbn [deref Xr] in *.
  match goal with
  | He : length ?e = length (Xr st) |- _ =>
      rewrite He, Nat.eqb_refl in H; injection H as _ <-; cbn [alpha mu Xr];
      repeat split; assumption
  end.
Qed.

(** ** Runs in binary64 *)

Ltac run_binary64 :=
  vm_compute;
  repeat (progress (repeat match goal with
                           | H : _ = _ |- _ => rewrite H
                           end); vm_compute).

(** The worked scenario, with the values glibc returns for the three
    library calls of its single update. *)
Lemma double_scenario_once (m : Double.libm) :
  Double.log m 0x1.999999999999ap-3 = (-0x1.9c041f7ed8d33p+0)%float ->
  Double.pow m 0x1.999999999999ap-1 2 = 0x1.47ae147ae147cp-1%float ->
  Double.exp m (-0x1.972f13b45a603p-1) = 0x1.ce4a0bd0ab3e1p-2%float ->
  Double.varbvsnormupdate_cpp m (Double.matrix 2) 1 1 [0%float] [4%float]
    [4%float] Double.zeros [0%Z]
  = inr {| Double.alpha := [0x1.60bfe89cf073fp-1%float];
           Double.mu := [0x1.999999999999ap-1%float];
           Double.Xr := [0x1.1a33207d8d299p+0%float] |}.
Proof.
  destruct m as [e l p]. cbn [Double.exp Double.log Double.pow].
  intros Hl Hp He. run_binary64. reflexivity.
Qed.

(** The same input with the order [[0, 0]]: the second update writes
    another [mu_0], whatever the library returns during it. *)
Lemma double_scenario_twice (m : Double.libm) :
  Double.log m 0x1.999999999999ap-3 = (-0x1.9c041f7ed8d33p+0)%float ->
  Double.pow m 0x1.999999999999ap-1 2 = 0x1.47ae147ae147cp-1%float ->
  Double.exp m (-0x1.972f13b45a603p-1) = 0x1.ce4a0bd0ab3e1p-2%float ->
  exists st2,
    Double.varbvsnormupdate_cpp m (Double.matrix 2) 1 1 [0%float] [4%float]
      [4%float] Double.zeros [0%Z; 0%Z] = inr st2
    /\ Double.mu st2 = [0x1.9999999999999p-1%float].
Proof.
  destruct m as [e l p]. cbn [Double.exp Double.log Double.pow].
  intros Hl Hp He. eexists. split.
  - run_binary64. reflexivity.
  - reflexivity.
Qed.


(** From [mu = 1e17] the update brings [mu] to 120; the increment of
    line 56 is rounded to a multiple of 16 and leaves [Xr = 128]. *)
Lemma double_cancellation (m : Double.libm) :
  Double.log m 0.5 = (-0x1.62e42fefa39efp-1)%float ->
  Double.pow m 120 2 = 14400%float ->
  Double.exp m (-0x1.c1fd3a37a020cp+13) = 0%float ->
  Double.varbvsnormupdate_cpp m (Double.matrix 1) 1 1 [0%float] [235.5%float]
    [1%float] Double.heavy [0%Z]
  = inr {| Double.alpha := [1%float]; Double.mu := [120%float];
           Double.Xr := [128%float] |}.
Proof.
  destruct m as [e l p]. cbn [Double.exp Double.log Double.pow].
  intros Hl Hp He. run_binary64. reflexivity.
Qed.

(** ** The input that is not fitted *)

Lemma unfitted_pass :
  varbvsnormupdate_cpp Unfitted.X 1 1 Unfitted.logodds Unfitted.xy Unfitted.d
    Unfitted.st0 [0%Z]
  = inr {| alpha := [sigmoid 0]; mu := [0]; Xr := [1] |}.
Proof.
  rewrite pass_steps.
  - unfold steps. cbn [map fold_left]. f_equal.
    rewrite step_zero_column.
    + reflexivity.
    + lra.
    + lra.
    + intros l Hl. simpl in Hl. unfold entry. simpl.
      destruct l as [| l]; [reflexivity | lia].
    + reflexivity.
    + reflexivity.
  - constructor; try reflexivity. repeat constructor; simpl; lia.
  - apply positive_all_regular. constructor; [lra | lra |].
    unfold Unfitted.d. constructor; [lra | constructor].
Qed.

(** ** The claims *)

(** C1, as amended.  For a valid input the call returns; the parameter
    [Xr], received by value, still designates the caller's vector when the
    loop ends; and the caller's [alpha], [mu] and [Xr] are those the steps
    produce one after the other, each step writing [mu_j] and [alpha_j] and
    adding [(alpha_j·mu_j − r_j)·column_j] to [Xr]. *)
Theorem caller_sees_every_mutation (X : NumericMatrix) (sigma sa : R)
    (logodds xy d : list R) (st : vectors) (i : list Z) :
  shaped X logodds xy d st i ->
  positive sigma sa d ->
  exists st',
    loop X sigma sa logodds xy d i (Shared, st) = inr (Shared, st')
    /\ varbvsnormupdate_cpp X sigma sa logodds xy d st i = inr st'
    /\ st' = fold_left (step X sigma sa logodds xy d) (map Z.to_nat i) st.
Proof.
  intros Hs Hp.
  exists (steps X sigma sa logodds xy d st i).
  pose proof (positive_all_regular sigma sa d i Hp) as Hr.
  split; [| split].
  - apply loop_steps; assumption.
  - apply pass_steps; assumption.
  - reflexivity.
Qed.

Lemma caller_sees_every_mutation_witness :
  exists st',
    loop Pair.X 1 1 Pair.logodds Pair.xy Pair.d [1%Z; 0%Z] (Shared, Pair.st0)
    = inr (Shared, st')
    /\ varbvsnormupdate_cpp Pair.X 1 1 Pair.logodds Pair.xy Pair.d Pair.st0
         [1%Z; 0%Z] = inr st'
    /\ st' = fold_left (step Pair.X 1 1 Pair.logodds Pair.xy Pair.d)
               (map Z.to_nat [1%Z; 0%Z]) Pair.st0.
Proof.
  apply (caller_sees_every_mutation Pair.X 1 1 Pair.logodds Pair.xy Pair.d
           Pair.st0 [1%Z; 0%Z]).
  - apply pair_shaped; [reflexivity | repeat constructor; lia].
  - exact pair_positive.
Defined.

(** C1, as stated, fails.  The input with the matrix [[0]], [alpha = mu = 0]
    and [Xr = 1] meets every condition the claim lists, and its [Xr] is not
    [X · (alpha ⊙ mu)] on exit.  In binary64 the equality also fails from
    vectors that satisfy it on entry: with the matrix [[1]], [alpha = 1],
    [mu = Xr = 1e17], [xy = 235.5], the call leaves [alpha = 1],
    [mu = 120] and [Xr = 128], for every library with the three values
    glibc returns during that call. *)
Lemma Xr_is_not_always_fitted_on_exit :
  (exists st',
      varbvsnormupdate_cpp Unfitted.X 1 1 Unfitted.logodds Unfitted.xy
        Unfitted.d Unfitted.st0 [0%Z] = inr st'
      /\ ~ fitted Unfitted.X st')
  /\ (1e17 =? 1 * (1 * 1e17))%float = true
  /\ ~ exists m : Double.libm,
         Double.log m 0.5 = (-0x1.62e42fefa39efp-1)%float
         /\ Double.pow m 120 2 = 14400%float
         /\ Double.exp m (-0x1.c1fd3a37a020cp+13) = 0%float
         /\ exists a' m' x',
              Double.varbvsnormupdate_cpp m (Double.matrix 1) 1 1 [0%float]
                [235.5%float] [1%float] Double.heavy [0%Z]
              = inr {| Double.alpha := [a']; Double.mu := [m'];
                       Double.Xr := [x'] |}
              /\ (x' =? 1 * (a' * m'))%float = true.
Proof.
  split; [| split].
  - eexists. split; [exact unfitted_pass |].
    unfold fitted, matvec, hadamard, entry. simpl.
    intros E. injection E as E. lra.
  - reflexivity.
  - intros (m & Hl & Hp & He & a' & m' & x' & E & Hx).
    rewrite (double_cancellation m Hl Hp He) in E.
    injection E as <- <- <-. vm_compute in Hx. discriminate Hx.
Qed.

(** C2.  For a valid input the pass is the sequence of the steps of the
    specification, one for each entry of the order, each working on the
    vectors left by the steps before it: [s_j], [r_j] from the current
    state, [mu_j], then [alpha_j] from the new [mu_j], then the increment
    of [Xr] by [(alpha_j·mu_j − r_j)·column_j]. *)
Theorem pass_is_the_sequence_of_steps (X : NumericMatrix) (sigma sa : R)
    (logodds xy d : list R) (st : vectors) (i : list Z) :
  shaped X logodds xy d st i ->
  positive sigma sa d ->
  varbvsnormupdate_cpp X sigma sa logodds xy d st i
  = inr (fold_left (step X sigma sa logodds xy d) (map Z.to_nat i) st).
Proof.
  intros Hs Hp. apply pass_steps; [exact Hs |].
  apply positive_all_regular, Hp.
Qed.

Lemma pass_is_the_sequence_of_steps_witness :
  varbvsnormupdate_cpp Pair.X 1 1 Pair.logodds Pair.xy Pair.d Pair.st0
    [1%Z; 0%Z; 1%Z]
  = inr (fold_left (step Pair.X 1 1 Pair.logodds Pair.xy Pair.d)
           [1%nat; 0%nat; 1%nat] Pair.st0).
Proof.
  apply (pass_is_the_sequence_of_steps Pair.X 1 1 Pair.logodds Pair.xy Pair.d
           Pair.st0 [1%Z; 0%Z; 1%Z]).
  - apply pair_shaped; [reflexivity | repeat constructor; lia].
  - exact pair_positive.
Defined.






(** C4, as amended.  On the worked scenario the pass computes [s = 0.2],
    [r = 0], [partial = 4], and leaves [mu = [0.8]],
    [alpha = [sigmoid(0.5·(ln(0.2) + 3.2))]], which is 0.6890 to four
    decimal places, and [Xr = [1.6·alpha_0]], which is 1.1023. *)
Theorem worked_scenario :
  posterior_variance 1 1 4 = inr 0.2
  /\ r_ Scenario.st0 0 = 0
  /\ partial_ Scenario.X Scenario.xy Scenario.d Scenario.st0 0 = 4
  /\ exists a x,
       varbvsnormupdate_cpp Scenario.X 1 1 Scenario.logodds Scenario.xy
         Scenario.d Scenario.st0 [0%Z]
       = inr {| alpha := [a]; mu := [0.8]; Xr := [x] |}
       /\ a = sigmoid (0.5 * (ln 0.2 + 3.2))
       /\ Rabs (a - 0.6890) < 0.00005
       /\ Rabs (x - 1.1023) < 0.00005.
Proof.
  split; [| split; [| split]].
  - unfold posterior_variance. rewrite div_nonzero by lra. f_equal. lra.
  - unfold r_. simpl. lra.
  - unfold partial_, r_, dot, column_of, entry. simpl. lra.
  - exists Scenario.a1, (2 * (Scenario.a1 * 0.8)).
    pose proof a1_bounds as [Hlo Hhi].
    split; [exact scenario_pass | split; [reflexivity |]].
    split; apply Rabs_def1; lra.
Qed.

(** C4, as stated, fails: the inclusion probability and the fitted value
    the pass leaves are further than one unit of the fourth decimal place
    from 0.6892 and 1.1027. *)
Lemma worked_scenario_is_not_6892 :
  exists a x,
    varbvsnormupdate_cpp Scenario.X 1 1 Scenario.logodds Scenario.xy
      Scenario.d Scenario.st0 [0%Z]
    = inr {| alpha := [a]; mu := [0.8]; Xr := [x] |}
    /\ ~ Rabs (a - 0.6892) <= 0.0001
    /\ ~ Rabs (x - 1.1027) <= 0.0001.
Proof.
  exists Scenario.a1, (2 * (Scenario.a1 * 0.8)).
  pose proof a1_bounds as [Hlo Hhi].
  split; [exact scenario_pass |].
  split; intros H; rewrite Rabs_left1 in H by lra; lra.
Qed.




(** C6, as amended.  With [sigma > 0], [sa > 0] and [d_j >= 0] the divisor
    [sa·d_j + 1] of line 46 is at least 1, and for [d_j = 0] the posterior
    variance is exactly [sa·sigma]; line 50 and [sigmoidcpp] do not divide
    by zero either; and line 53 does not as long as [sa·sigma] and [s] are
    not zero. *)
Theorem divisions_that_are_not_by_zero (sigma sa dj : R) :
  0 < sigma -> 0 < sa -> 0 <= dj ->
  1 <= sa * dj + 1
  /\ posterior_variance sa sigma dj = inr (sa * sigma / (sa * dj + 1))
  /\ posterior_variance sa sigma 0 = inr (sa * sigma)
  /\ (forall s xyj r dt,
        posterior_mean s sigma xyj dj r dt <> inl DivisionByZero)
  /\ (forall x, sigmoidcpp x <> inl DivisionByZero)
  /\ (forall lj s m, sa * sigma <> 0 -> s <> 0 ->
        inclusion_probability lj s sa sigma m <> inl DivisionByZero).
Proof.
  intros Hsigma Hsa Hd.
  assert (H1 : 1 <= sa * dj + 1) by nra.
  split; [exact H1 |]. split; [| split; [| split; [| split]]].
  - unfold posterior_variance. apply div_nonzero. lra.
  - unfold posterior_variance. rewrite div_nonzero by lra. f_equal. field.
  - intros s xyj r dt. apply posterior_mean_no_div. lra.
  - apply sigmoidcpp_no_div.
  - intros lj s m. apply inclusion_probability_no_div.
Qed.

Lemma divisions_that_are_not_by_zero_witness :
  1 <= 1 * 4 + 1
  /\ posterior_variance 1 1 4 = inr (1 * 1 / (1 * 4 + 1))
  /\ posterior_variance 1 1 0 = inr (1 * 1)
  /\ (forall s xyj r dt,
        posterior_mean s 1 xyj 4 r dt <> inl DivisionByZero)
  /\ (forall x, sigmoidcpp x <> inl DivisionByZero)
  /\ (forall lj s m, 1 * 1 <> 0 -> s <> 0 ->
        inclusion_probability lj s 1 1 m <> inl DivisionByZero).
Proof.
  apply (divisions_that_are_not_by_zero 1 1 4); lra.
Defined.

(** C6, as stated, fails in binary64.  For [sigma = sa = 1e-200], both
    positive, and [d_j = 4] the product [sa * sigma] is 0 and so is the
    posterior variance [s] of line 46: the two divisions of line 53,
    [s / (sa * sigma)] and [pow(mu[j], 2) / s], are divisions by zero, and
    the first one yields a NaN. *)
Lemma underflow_divides_by_zero :
  (0 <? Double.tiny)%float = true
  /\ (0 <=? 4)%float = true
  /\ (Double.tiny * Double.tiny)%float = 0%float
  /\ Double.posterior_variance Double.tiny Double.tiny 4 = 0%float
  /\ PrimFloat.is_nan
       (Double.posterior_variance Double.tiny Double.tiny 4
        / (Double.tiny * Double.tiny))%float = true.
Proof. repeat split; reflexivity. Qed.

(** C7.  For a valid input the call returns, and a predictor [k] that the
    order does not name has the [alpha_k] and [mu_k] it had on entry. *)
Theorem unnamed_predictors_untouched (X : NumericMatrix) (sigma sa : R)
    (logodds xy d : list R) (st : vectors) (i : list Z) :
  shaped X logodds xy d st i ->
  positive sigma sa d ->
  exists st',
    varbvsnormupdate_cpp X sigma sa logodds xy d st i = inr st'
    /\ forall k : nat, Z.of_nat k ∉ i ->
         alpha st' !! k = alpha st !! k /\ mu st' !! k = mu st !! k.
Proof.
  intros Hs Hp.
  exists (steps X sigma sa logodds xy d st i). split.
  - apply pass_steps; [exact Hs | apply positive_all_regular, Hp].
  - intros k Hk. apply steps_frame.
    intros Hin. apply Hk.
    apply list_elem_of_fmap in Hin. destruct Hin as (j & -> & Hj).
    pose proof (proj1 (Forall_forall _ i) (shaped_order _ _ _ _ _ _ Hs) j Hj)
      as [H0 _].
    rewrite Z2Nat.id by exact H0. exact Hj.
Qed.

Lemma unnamed_predictors_untouched_witness :
  exists st',
    varbvsnormupdate_cpp Pair.X 1 1 Pair.logodds Pair.xy Pair.d Pair.st0
      [0%Z; 0%Z] = inr st'
    /\ forall k : nat, Z.of_nat k ∉ [0%Z; 0%Z] ->
         alpha st' !! k = alpha Pair.st0 !! k
         /\ mu st' !! k = mu Pair.st0 !! k.
Proof.
  apply (unnamed_predictors_untouched Pair.X 1 1 Pair.logodds Pair.xy Pair.d
           Pair.st0 [0%Z; 0%Z]).
  - apply pair_shaped; [reflexivity | repeat constructor; lia].
  - exact pair_positive.
Defined.

(** C8.  In binary64, on the worked scenario ([sigma = sa = 1], [d = 4] the
    square of the entry 2 of [X], [Xr = X · (alpha ⊙ mu) = 0]), the order
    [[0, 0]] leaves a [mu_0] below the one the order [[0]] leaves: the
    second update computes [4 + 4·r − 2·Xr] from the [r] and [Xr] the first
    one left, and that is no longer 4.  The library enters through the
    values of the three calls of the first update, which are those glibc
    returns. *)
Theorem second_update_differs_in_binary64 (m : Double.libm) :
  Double.log m 0x1.999999999999ap-3 = (-0x1.9c041f7ed8d33p+0)%float ->
  Double.pow m 0x1.999999999999ap-1 2 = 0x1.47ae147ae147cp-1%float ->
  Double.exp m (-0x1.972f13b45a603p-1) = 0x1.ce4a0bd0ab3e1p-2%float ->
  exists st1 st2 x1 x2,
    Double.varbvsnormupdate_cpp m (Double.matrix 2) 1 1 [0%float] [4%float]
      [4%float] Double.zeros [0%Z] = inr st1
    /\ Double.varbvsnormupdate_cpp m (Double.matrix 2) 1 1 [0%float]
         [4%float] [4%float] Double.zeros [0%Z; 0%Z] = inr st2
    /\ Double.mu st1 = [x1]
    /\ Double.mu st2 = [x2]
    /\ (x2 <? x1)%float = true.
Proof.
  intros Hl Hp He.
  destruct (double_scenario_twice m Hl Hp He) as (st2 & E2 & Em2).
  eexists. exists st2. eexists. eexists.
  split; [exact (double_scenario_once m Hl Hp He) |].
  split; [exact E2 |].
  split; [reflexivity |].
  split; [exact Em2 |].
  reflexivity.
Qed.

Lemma second_update_differs_in_binary64_witness :
  exists st1 st2 x1 x2,
    Double.varbvsnormupdate_cpp
      (Double.libm_const 0x1.ce4a0bd0ab3e1p-2 (-0x1.9c041f7ed8d33p+0)
         0x1.47ae147ae147cp-1)
      (Double.matrix 2) 1 1 [0%float] [4%float] [4%float] Double.zeros [0%Z]
    = inr st1
    /\ Double.varbvsnormupdate_cpp
         (Double.libm_const 0x1.ce4a0bd0ab3e1p-2 (-0x1.9c041f7ed8d33p+0)
            0x1.47ae147ae147cp-1)
         (Double.matrix 2) 1 1 [0%float] [4%float] [4%float] Double.zeros
         [0%Z; 0%Z]
       = inr st2
    /\ Double.mu st1 = [x1]
    /\ Double.mu st2 = [x2]
    /\ (x2 <? x1)%float = true.
Proof.
  apply (second_update_differs_in_binary64
           (Double.libm_const 0x1.ce4a0bd0ab3e1p-2 (-0x1.9c041f7ed8d33p+0)
              0x1.47ae147ae147cp-1)); reflexivity.
Defined.

(** C9.  With an empty order the call returns at once and [alpha], [mu]
    and [Xr] are as supplied, whatever the other arguments. *)
Theorem empty_order_changes_nothing (X : NumericMatrix) (sigma sa : R)
    (logodds xy d : list R) (st : vectors) :
  varbvsnormupdate_cpp X sigma sa logodds xy d st [] = inr st.
Proof. reflexivity. Qed.




(** ** Further properties of the pass *)

(** X1.  One call with the order [i1 ++ i2] is a call with [i1] followed by
    a call with [i2] on the vectors the first one leaves, for every input:
    the same result, or the same failure. *)
Theorem pass_app (X : NumericMatrix) (sigma sa : R) (logodds xy d : list R)
    (st : vectors) (i1 i2 : list Z) :
  varbvsnormupdate_cpp X sigma sa logodds xy d st (i1 ++ i2)
  = (st' <- varbvsnormupdate_cpp X sigma sa logodds xy d st i1 ;;
     varbvsnormupdate_cpp X sigma sa logodds xy d st' i2).
Proof.
  unfold varbvsnormupdate_cpp. rewrite loop_app.
  destruct (loop X sigma sa logodds xy d i1 (Shared, st))
    as [f | [h st1]] eqn:E.
  - reflexivity.
  - apply loop_keeps_shared in E as ->. reflexivity.
Qed.

Lemma loop_lengths (X : NumericMatrix) (sigma sa : R) (logodds xy d : list R)
    (i : list Z) (st st' : vectors) (h : handle) :
  loop X sigma sa logodds xy d i (Shared, st) = inr (h, st') ->
  length (alpha st') = length (alpha st)
  /\ length (mu st') = length (mu st)
  /\ length (Xr st') = length (Xr st).
Proof.
  revert st. induction i as [| j i IH]; intros st H.
  - injection H as _ <-. repeat split; reflexivity.
  - cbn [loop] in H. apply bind_inr in H.
    destruct H as ([h1 st1] & H1 & H).
    pose proof (update_keeps_shared _ _ _ _ _ _ _ _ _ _ H1) as ->.
    destruct (update_lengths _ _ _ _ _ _ _ _ _ _ H1) as (Ea & Em & Ex).
    destruct (IH st1 H) as (Ea' & Em' & Ex').
    repeat split; congruence.
Qed.

(** X3.  Whenever a call returns, for any arguments, [alpha], [mu] and [Xr]
    have the lengths they had on entry. *)
Theorem lengths_are_kept (X : NumericMatrix) (sigma sa : R)
    (logodds xy d : list R) (st st' : vectors) (i : list Z) :
  varbvsnormupdate_cpp X sigma sa logodds xy d st i = inr st' ->
  length (alpha st') = length (alpha st)
  /\ length (mu st') = length (mu st)
  /\ length (Xr st') = length (Xr st).
Proof.
  unfold varbvsnormupdate_cpp. intros H.
  apply bind_inr in H. destruct H as ([h st1] & H1 & H).
  injection H as <-. exact (loop_lengths _ _ _ _ _ _ _ _ _ _ H1).
Qed.

Lemma lengths_are_kept_witness :
  length (alpha Scenario.st1) = length (alpha Scenario.st0)
  /\ length (mu Scenario.st1) = length (mu Scenario.st0)
  /\ length (Xr Scenario.st1) = length (Xr Scenario.st0).
Proof.
  apply (lengths_are_kept Scenario.X 1 1 Scenario.logodds Scenario.xy
           Scenario.d Scenario.st0 Scenario.st1 [0%Z]).
  exact scenario_pass.
Defined.

Lemma loop_in_range (X : NumericMatrix) (sigma sa : R) (logodds xy d : list R)
    (i : list Z) (hs hs' : handle * vectors) :
  loop X sigma sa logodds xy d i hs = inr hs' ->
  Forall (fun j => (0 <= j < Z.of_nat (ncol X))%Z) i.
Proof.
  revert hs. induction i as [| j i IH]; intros hs H.
  - constructor.
  - cbn [loop] in H. apply bind_inr in H. destruct H as (hs1 & H1 & H).
    constructor.
    + exact (update_in_range _ _ _ _ _ _ _ _ _ H1).
    + exact (IH hs1 H).
Qed.

(** X15.  Whenever a call returns, for any arguments, every entry of the
    order is the index of a column of [X]: an entry below 0 or not below
    the number of columns never goes unnoticed. *)
Theorem returning_calls_name_columns (X : NumericMatrix) (sigma sa : R)
    (logodds xy d : list R) (st st' : vectors) (i : list Z) :
  varbvsnormupdate_cpp X sigma sa logodds xy d st i = inr st' ->
  Forall (fun j => (0 <= j < Z.of_nat (ncol X))%Z) i.
Proof.
  unfold varbvsnormupdate_cpp. intros H.
  apply bind_inr in H. destruct H as (hs & H1 & _).
  exact (loop_in_range _ _ _ _ _ _ _ _ _ H1).
Qed.

Lemma returning_calls_name_columns_witness :
  Forall (fun j => (0 <= j < Z.of_nat (ncol Scenario.X))%Z) [0%Z].
Proof.
  apply (returning_calls_name_columns Scenario.X 1 1 Scenario.logodds
           Scenario.xy Scenario.d Scenario.st0 Scenario.st1 [0%Z]).
  exact scenario_pass.
Defined.


